(** * Verification model of squeezebunny/image_viewer (src/main.rs)

    A shallow embedding of the image viewer's core: the file list built by
    [get_filelist], the navigation of [Stage] ([next_image], [prev_image],
    [random_image]), the scale computation [calculate_ratio] on IEEE 754
    binary32 numbers, and the redraw counter driven by [Stage::draw]. *)

From Stdlib Require Import ZArith Lia List Bool String Ascii.
From Stdlib Require Import Sorted Permutation FinFun.
From Stdlib Require Import Floats.SpecFloat.
Import ListNotations.
Open Scope Z_scope.

(** ** f32 arithmetic

    Rust's [f32] is IEEE 754 binary32: 24 bits of precision, infinities at
    exponent 128. [SpecFloat] gives executable round-to-nearest-even
    operations for any format. *)
Module F32.

Definition prec : Z := 24.
Definition emax : Z := 128.

Definition f32 := spec_float.

Definition mul (x y : f32) : f32 := SFmul prec emax x y.
Definition div (x y : f32) : f32 := SFdiv prec emax x y.
Definition opp (x : f32) : f32 := SFopp x.
Definition abs (x : f32) : f32 := SFabs x.
Definition leb (x y : f32) : bool := SFleb x y.
Definition ltb (x y : f32) : bool := SFltb x y.
Definition valid (x : f32) : bool := valid_binary prec emax x.

(** [1.0f32] and [-1.0f32]. *)
Definition one : f32 := S754_finite false 8388608 (-23).
Definition minus_one : f32 := S754_finite true 8388608 (-23).
Definition zero : f32 := S754_zero false.

(** [n as f32] for an unsigned integer [n] (round to nearest). *)
Definition of_u32 (n : Z) : f32 := binary_normalize prec emax n 0 false.

(** [f32::min]: the smaller operand; when one operand is NaN the other one
    is returned. *)
Definition min (x y : f32) : f32 :=
  match x, y with
  | S754_nan, _ => y
  | _, S754_nan => x
  | _, _ => if ltb y x then y else x
  end.

(** Values whose sign bit is clear, or NaN: the values a product or quotient
    of non-negative operands can take. *)
Definition nonneg (x : f32) : bool :=
  match x with
  | S754_zero false | S754_infinity false | S754_finite false _ _ | S754_nan => true
  | _ => false
  end.

(** Strictly positive finite values. *)
Definition pos (x : f32) : bool :=
  match x with
  | S754_finite false _ _ => true
  | _ => false
  end.

End F32.

(** ** Navigation (Stage::next_image, prev_image, random_image)

    Indices are [usize]; the image count is [self.images.len()].
    [%] by zero panics in Rust; the stage model below checks the count
    before calling these. *)
Module Nav.

Open Scope nat_scope.

(** [(self.current_image_index + 1) % self.images.len()] *)
Definition next_index (i count : nat) : nat := (i + 1) mod count.

(** [if i == 0 { len - 1 } else { i - 1 }] *)
Definition prev_index (i count : nat) : nat :=
  if Nat.eqb i 0 then count - 1 else i - 1.

(** [rand::random::<usize>() % self.images.len()], for the random draw [r]. *)
Definition random_index (r count : nat) : nat := r mod count.

(** The index invariant of NavigationState. *)
Definition in_range (i count : nat) : Prop := i < count.

End Nav.

(** ** Paths and the file list (get_filelist) *)
Module Files.

(** A path as the sequence of its components, the way [std::path::Path]
    compares and walks it: ["/"] is the root component, ["."] the current
    directory; [dir.join(name)] appends one component. *)
Definition path := list string.

Definition SUPPORTED_IMAGE_TYPES : list string :=
  ["jpg"; "jpeg"; "png"; "bmp"; "tif"]%string.

(** [Path::file_name]: the last component, unless it is the root, [.] or [..]. *)
Definition file_name (p : path) : option string :=
  match rev p with
  | [] => None
  | c :: _ =>
      if (String.eqb c "/" || String.eqb c "." || String.eqb c "..")%bool
      then None else Some c
  end.

(** Scan a reversed name for its last '.', giving the reversed part after it
    and the reversed part before it. *)
Fixpoint split_last_dot_rev (rl : list ascii) : option (list ascii * list ascii) :=
  match rl with
  | [] => None
  | c :: rl' =>
      if Ascii.eqb c "."%char then Some ([], rl')
      else match split_last_dot_rev rl' with
           | Some (after, before) => Some (c :: after, before)
           | None => None
           end
  end.

(** [Path::extension], after std's [rsplit_file_at_dot]: the text after the
    last '.' of the file name; none when there is no '.', when the only '.'
    starts the name, or for [..]. *)
Definition extension (p : path) : option string :=
  match file_name p with
  | None => None
  | Some f =>
      if String.eqb f ".." then None else
      match split_last_dot_rev (rev (list_ascii_of_string f)) with
      | None => None
      | Some (after, before) =>
          match before with
          | [] => None
          | _ => Some (string_of_list_ascii (rev after))
          end
      end
  end.

(** The filter closure of get_filelist: [supported_image_types.contains(&ext)]
    compares [OsStr]s byte for byte. *)
Definition is_supported (p : path) : bool :=
  match extension p with
  | Some ext => existsb (String.eqb ext) SUPPORTED_IMAGE_TYPES
  | None => false
  end.

(** [Path::parent]: drop the last component; the root and the empty path
    have no parent. *)
Definition parent (p : path) : option path :=
  match rev p with
  | [] => None
  | c :: rest => if String.eqb c "/" then None else Some (rev rest)
  end.

Definition join (dir : path) (name : string) : path := dir ++ [name].

Definition path_eqb (a b : path) : bool :=
  if list_eq_dec String.string_dec a b then true else false.



(** [Iterator::last] on [std::env::args()]. *)
Fixpoint last_arg (args : list path) : option path :=
  match args with
  | [] => None
  | [a] => Some a
  | _ :: args' => last_arg args'
  end.

(** The enumerate/any scan for the starting file: the first index whose
    entry is path-equal to [file]. *)
Fixpoint find_initial (file : path) (l : list path) (i : nat) : option nat :=
  match l with
  | [] => None
  | p :: l' => if path_eqb file p then Some i else find_initial file l' (S i)
  end.

(** The modification time of a file as the sort comparator reads it:
    [metadata()] may fail ([MetadataErr], e.g. a dangling symlink), and so
    may [modified()] ([ModifiedErr], a platform without the field). *)
Inductive file_time :=
  | MTime (t : Z)
  | MetadataErr
  | ModifiedErr.

(** What the program sees of its environment: the argument vector (its
    first element is the program's own path), directory listings
    ([read_dir], in listing order; [None] when the directory cannot be
    opened, a [None] entry for an entry the iterator yields as [Err]),
    modification times and image decoding ([None] when the file cannot be
    opened or its format guessed or decoded; otherwise the decoded width
    and height). *)
Record World := {
  args : list path;
  read_dir : path -> option (list (option string));
  modified : path -> file_time;
  decode : path -> option (Z * Z);
}.

(** A run either continues with a value or stops: [Panic] for [expect],
    [unwrap] and arithmetic panics (with the message given to [expect], or
    the [unwrap] message; the [Debug] text of the error that [Result::expect]
    and [Result::unwrap] append is left out), [Exit] for
    [std::process::exit]. *)
Inductive outcome (A : Type) : Type :=
  | Ok (a : A)
  | Panic (msg : string)
  | Exit.
Arguments Ok {A} a.
Arguments Panic {A} msg.
Arguments Exit {A}.

(** [b.metadata().expect("error reading file metadata").modified().unwrap()]. *)
Definition read_mtime (w : World) (p : path) : outcome Z :=
  match modified w p with
  | MTime t => Ok t
  | MetadataErr => Panic "error reading file metadata"
  | ModifiedErr => Panic "called `Result::unwrap()` on an `Err` value"
  end.

(** The comparator of get_filelist, [|a, b| mtime(b).cmp(&mtime(a))]: the
    time of [b] is read first, then that of [a]. *)
Definition mtime_cmp (w : World) (a b : path) : outcome comparison :=
  match read_mtime w b with
  | Ok tb =>
      match read_mtime w a with
      | Ok ta => Ok (Z.compare tb ta)
      | Panic m => Panic m
      | Exit => Exit
      end
  | Panic m => Panic m
  | Exit => Exit
  end.

(** [slice::sort_by] with a comparator that may panic, in the comparison
    order of std's insertion sort for short slices in its [insert_head]
    form: the tail is sorted first, then the head [x] moves right past each
    [y] with [is_less(y, x)], i.e. [cmp y x = Less]. The first panicking
    comparison aborts the sort. (Other std versions compare in another
    order; that can only change which of two metadata messages is reported
    when entries fail in different ways. With a comparator that never
    panics the result is the stable order [sort_by], see
    [sort_checked_total] below.) *)
Fixpoint insert_head {A} (cmp : A -> A -> outcome comparison) (x : A) (l : list A)
  : outcome (list A) :=
  match l with
  | [] => Ok [x]
  | y :: l' =>
      match cmp y x with
      | Ok Lt =>
          match insert_head cmp x l' with
          | Ok r => Ok (y :: r)
          | Panic m => Panic m
          | Exit => Exit
          end
      | Ok _ => Ok (x :: l)
      | Panic m => Panic m
      | Exit => Exit
      end
  end.

Fixpoint sort_checked {A} (cmp : A -> A -> outcome comparison) (l : list A)
  : outcome (list A) :=
  match l with
  | [] => Ok []
  | x :: l' =>
      match sort_checked cmp l' with
      | Ok s => insert_head cmp x s
      | Panic m => Panic m
      | Exit => Exit
      end
  end.

(** [.map(|e| e.expect("problem reading file directory at {e}").path())]
    collected: the first [Err] entry panics (the [{e}] is not
    interpolated by [expect]). *)
Fixpoint entry_names (entries : list (option string)) : option (list string) :=
  match entries with
  | [] => Some []
  | None :: _ => None
  | Some n :: es =>
      match entry_names es with
      | Some ns => Some (n :: ns)
      | None => None
      end
  end.

Definition get_filelist (w : World) : outcome (list path * option nat) :=
  match last_arg (args w) with
  | None => Panic "no file specified"
  | Some file_path =>
      match parent file_path with
      | None => Panic "invalid file path"
      | Some dir =>
          match read_dir w dir with
          | None => Panic "problem reading directory"
          | Some entries =>
              match entry_names entries with
              | None => Panic "problem reading file directory at {e}"
              | Some names =>
                  match sort_checked (mtime_cmp w)
                          (filter is_supported (map (join dir) names)) with
                  | Ok image_filenames =>
                      Ok (image_filenames, find_initial file_path image_filenames 0)
                  | Panic m => Panic m
                  | Exit => Exit
                  end
              end
          end
      end
  end.

End Files.

(** ** The Stage *)
Module Stage.
Import F32 Files.

(** [const RENDERS: i8 = 3] *)
Definition RENDERS : Z := 3.

(** The fields of [struct Stage] that the logic reads or writes; the
    texture is represented by its [width] and [height] ([u32]), the GPU
    bindings and pipeline by nothing. *)
Record stage := mkStage {
  render : Z;
  flip : bool;
  fullscreen : bool;
  ratio : f32 * f32;
  tex_width : Z;
  tex_height : Z;
  images : list path;
  current_image_index : nat;
}.

Definition set_render (st : stage) (r : Z) : stage :=
  mkStage r (flip st) (fullscreen st) (ratio st) (tex_width st) (tex_height st)
    (images st) (current_image_index st).
Definition set_flip (st : stage) (b : bool) : stage :=
  mkStage (render st) b (fullscreen st) (ratio st) (tex_width st) (tex_height st)
    (images st) (current_image_index st).
Definition set_fullscreen (st : stage) (b : bool) : stage :=
  mkStage (render st) (flip st) b (ratio st) (tex_width st) (tex_height st)
    (images st) (current_image_index st).
Definition set_ratio (st : stage) (r : f32 * f32) : stage :=
  mkStage (render st) (flip st) (fullscreen st) r (tex_width st) (tex_height st)
    (images st) (current_image_index st).
Definition set_texture (st : stage) (w h : Z) : stage :=
  mkStage (render st) (flip st) (fullscreen st) (ratio st) w h
    (images st) (current_image_index st).
Definition set_index (st : stage) (i : nat) : stage :=
  mkStage (render st) (flip st) (fullscreen st) (ratio st) (tex_width st) (tex_height st)
    (images st) i.

(** [fn calculate_ratio]; [screen] is [ctx.screen_size()]. The
    [self.ratio.0 *= -1.0] of the mirrored case is IEEE multiplication by
    [-1.0], which is exact and flips the sign ([F32.opp]); the lemma
    [F32_mul_minus_one] below checks this on every valid binary32 value. *)
Definition calculate_ratio (screen : f32 * f32) (st : stage) : stage :=
  let st := set_render st RENDERS in
  let '(sw, sh) := screen in
  let '(iw, ih) := (of_u32 (tex_width st), of_u32 (tex_height st)) in
  let r := (min (mul (div sh sw) (div iw ih)) one,
            min (mul (div sw sh) (div ih iw)) one) in
  let r := if flip st then (opp (fst r), snd r) else r in
  set_ratio st r.

(** [fn load_image_from_current], followed by the caller's [.unwrap()]:
    the current path must exist, the file must decode; the texture is
    resized to the image and the ratio recomputed. *)
Definition load_image_from_current (w : World) (screen : f32 * f32) (st : stage)
  : outcome stage :=
  match nth_error (images st) (current_image_index st) with
  | None => Panic "invalid image index"
  | Some p =>
      match decode w p with
      | None => Panic "called `Result::unwrap()` on an `Err` value"
      | Some (iw, ih) => Ok (calculate_ratio screen (set_texture st iw ih))
      end
  end.

(** [fn new]: the texture starts empty (0 x 0), [render] at [RENDERS], the
    index at the found starting file or 0. *)
Definition new (w : World) (screen : f32 * f32) : outcome stage :=
  match get_filelist w with
  | Ok (filelist, initial) =>
      load_image_from_current w screen
        (mkStage RENDERS false false (zero, zero) 0 0 filelist
           (match initial with Some i => i | None => 0%nat end))
  | Panic m => Panic m
  | Exit => Exit
  end.

Definition toggle_flip (screen : f32 * f32) (st : stage) : stage :=
  calculate_ratio screen (set_flip st (negb (flip st))).

Definition next_image (w : World) (screen : f32 * f32) (st : stage) : outcome stage :=
  let len := List.length (images st) in
  if Nat.eqb len 0 then Panic "attempt to calculate the remainder with a divisor of zero"
  else load_image_from_current w screen
         (set_index st (Nav.next_index (current_image_index st) len)).

(** [self.images.len() - 1] on an empty list overflows [usize]. *)
Definition prev_image (w : World) (screen : f32 * f32) (st : stage) : outcome stage :=
  let len := List.length (images st) in
  if Nat.eqb (current_image_index st) 0 && Nat.eqb len 0
  then Panic "attempt to subtract with overflow"
  else load_image_from_current w screen
         (set_index st (Nav.prev_index (current_image_index st) len)).

(** [r] is the value of [rand::random::<usize>()]. *)
Definition random_image (w : World) (screen : f32 * f32) (r : nat) (st : stage)
  : outcome stage :=
  let len := List.length (images st) in
  if Nat.eqb len 0 then Panic "attempt to calculate the remainder with a divisor of zero"
  else load_image_from_current w screen (set_index st (Nav.random_index r len)).

Definition toggle_fullscreen (st : stage) : stage :=
  set_fullscreen st (negb (fullscreen st)).

(** [fn draw]: one draw submission while [render > 0], then [render -= 1];
    the boolean tells whether a draw call was issued this frame. *)
Definition draw (st : stage) : stage * bool :=
  if 0 <? render st then (set_render st (render st - 1), true) else (st, false).

(** The events the [EventHandler] reacts to: characters, key codes, window
    resizes and frame ticks ([draw]). *)
Inductive event :=
  | CharEvent (c : ascii)
  | KeyRight | KeyLeft | KeySpace (r : nat) | KeyEscape | KeyOther
  | ResizeEvent
  | Frame.

Definition with_no_draw (o : outcome stage) : outcome (stage * bool) :=
  match o with
  | Ok st => Ok (st, false)
  | Panic m => Panic m
  | Exit => Exit
  end.

(** One event handled by the [EventHandler] impl; [screen] is the window
    size at that moment. *)
Definition step (w : World) (screen : f32 * f32) (st : stage) (ev : event)
  : outcome (stage * bool) :=
  match ev with
  | CharEvent c =>
      if Ascii.eqb c "u"%char then with_no_draw (next_image w screen st)
      else if Ascii.eqb c "o"%char then with_no_draw (prev_image w screen st)
      else if Ascii.eqb c "m"%char then Ok (toggle_flip screen st, false)
      else if Ascii.eqb c "f"%char then Ok (toggle_fullscreen st, false)
      else if Ascii.eqb c "q"%char then Exit
      else Ok (st, false)
  | KeyRight => with_no_draw (next_image w screen st)
  | KeyLeft => with_no_draw (prev_image w screen st)
  | KeySpace r => with_no_draw (random_image w screen r st)
  | KeyEscape => Exit
  | KeyOther => Ok (st, false)
  | ResizeEvent => Ok (calculate_ratio screen st, false)
  | Frame => Ok (draw st)
  end.

(** The handled events that recompute the geometry (and so reset
    [render]): navigation, the mirror toggle and window resizes. *)
Definition recomputes_geometry (ev : event) : bool :=
  match ev with
  | CharEvent c => (Ascii.eqb c "u"%char || Ascii.eqb c "o"%char || Ascii.eqb c "m"%char)%bool
  | KeyRight | KeyLeft | KeySpace _ | ResizeEvent => true
  | _ => false
  end.

(** Stages reachable from a successful [Stage::new] by handled events. *)
Inductive reachable (w : World) : stage -> Prop :=
  | reach_new : forall screen st, new w screen = Ok st -> reachable w st
  | reach_step : forall screen st ev st' drew,
      reachable w st -> step w screen st ev = Ok (st', drew) -> reachable w st'.

(** [n] frame ticks: the draw flags, in order, and the final stage. *)
Fixpoint frames (n : nat) (st : stage) : list bool * stage :=
  match n with
  | O => ([], st)
  | S n' =>
      let '(st1, d) := draw st in
      let '(ds, st2) := frames n' st1 in
      (d :: ds, st2)
  end.

End Stage.

(** ** Concrete environments *)
Module Examples.
Import Files.

(** The directory [/pics] holds [a.png] (mtime 10), [b.jpg] (mtime 30) and
    [c.txt] (mtime 20); the current directory [.] holds the program
    [image_viewer] and [cat.png]; [/caps] holds [A.JPG] and [b.png]. *)
Definition listing (dir : path) : option (list (option string)) :=
  if path_eqb dir ["/"; "pics"]%string then Some (map Some ["a.png"; "b.jpg"; "c.txt"]%string)
  else if path_eqb dir ["."]%string then Some (map Some ["image_viewer"; "cat.png"]%string)
  else if path_eqb dir ["/"; "caps"]%string then Some (map Some ["A.JPG"; "b.png"]%string)
  else None.

Definition mtimes (p : path) : Z :=
  match file_name p with
  | Some f =>
      if String.eqb f "a.png" then 10
      else if String.eqb f "b.jpg" then 30
      else if String.eqb f "c.txt" then 20
      else if String.eqb f "b.png" then 5
      else 0
  | None => 0
  end.

Definition world (argv : list path) : World :=
  {| args := argv; read_dir := listing; modified := fun p => MTime (mtimes p);
     decode := fun _ => Some (640, 480) |}.

Definition program : path := ["."; "image_viewer"]%string.



End Examples.

(** ** Further concrete environments *)
Module MoreExamples.
Import Files Examples.

(** [/docs] holds no image. *)
Definition no_images_world : World :=
  {| args := [program; ["/"; "docs"; "notes.txt"]%string];
     read_dir := fun _ => Some (map Some ["notes.txt"; "README"]%string);
     modified := fun _ => MTime 0;
     decode := fun _ => Some (640, 480) |}.

(** [/pics] as in [Examples.world], but [a.png] does not decode. *)
Definition broken_world : World :=
  {| args := [program; ["/"; "pics"; "b.jpg"]%string];
     read_dir := listing;
     modified := fun p => MTime (mtimes p);
     decode := fun p => if path_eqb p ["/"; "pics"; "a.png"]%string then None
                        else Some (640, 480) |}.



End MoreExamples.

(** * Properties *)

(** ** Navigation *)
Module NavProofs.
Import Nav.
Open Scope nat_scope.

Lemma next_index_lt (i count : nat) : 0 < count -> next_index i count < count.
Proof. intros H. unfold next_index. apply Nat.mod_upper_bound. lia. Qed.

Lemma prev_index_lt (i count : nat) : 0 < count -> i < count -> prev_index i count < count.
Proof. intros H Hi. unfold prev_index. destruct (Nat.eqb_spec i 0); lia. Qed.

Lemma random_index_lt (r count : nat) : 0 < count -> random_index r count < count.
Proof. intros H. unfold random_index. apply Nat.mod_upper_bound. lia. Qed.

Lemma iter_next_index (count i k : nat) :
  i < count -> Nat.iter k (fun j => next_index j count) i = (i + k) mod count.
Proof.
  intros Hi. induction k as [|k IH].
  - simpl. rewrite Nat.add_0_r, Nat.mod_small; auto.
  - rewrite Nat.iter_succ, IH. unfold next_index.
    rewrite Nat.Div0.add_mod_idemp_l. f_equal. lia.
Qed.

Lemma prev_next_index (i count : nat) :
  i < count -> prev_index (next_index i count) count = i.
Proof.
  intros Hi. unfold prev_index, next_index.
  destruct (Nat.eq_dec (i + 1) count) as [E|E].
  - rewrite E, Nat.Div0.mod_same. simpl. lia.
  - rewrite Nat.mod_small by lia.
    destruct (Nat.eqb_spec (i + 1) 0); lia.
Qed.

Lemma iter_prev_iter_next (count i k : nat) :
  0 < count -> i < count ->
  Nat.iter k (fun j => prev_index j count)
    (Nat.iter k (fun j => next_index j count) i) = i.
Proof.
  intros Hc Hi. induction k as [|k IH]; [reflexivity|].
  rewrite Nat.iter_succ_r, (Nat.iter_succ k _ (fun j => next_index j count)).
  rewrite prev_next_index; [exact IH|].
  rewrite iter_next_index by exact Hi. apply Nat.mod_upper_bound. lia.
Qed.

(** C2: with [count > 0] and [i < count], [count] applications of [next]
    bring the index back to [i], and so do [count] applications of [prev];
    [prev] at 0 gives [count - 1] and [next] at [count - 1] gives 0. *)
Theorem nav_cycle (count i : nat) :
  0 < count -> i < count ->
  Nat.iter count (fun j => next_index j count) i = i /\
  Nat.iter count (fun j => prev_index j count) i = i /\
  prev_index 0 count = count - 1 /\
  next_index (count - 1) count = 0.
Proof.
  intros Hc Hi.
  assert (Hn : Nat.iter count (fun j => next_index j count) i = i).
  { rewrite iter_next_index by exact Hi.
    replace (i + count) with (i + 1 * count) by lia.
    rewrite Nat.Div0.mod_add. apply Nat.mod_small. exact Hi. }
  split; [exact Hn|]. split; [|split].
  - pose proof (iter_prev_iter_next count i count Hc Hi) as H.
    rewrite Hn in H. exact H.
  - reflexivity.
  - unfold next_index. replace (count - 1 + 1) with count by lia.
    apply Nat.Div0.mod_same.
Qed.

Lemma nav_cycle_witness :
  (0 < 4 /\ 2 < 4) /\
  Nat.iter 4 (fun j => next_index j 4) 2 = 2 /\
  Nat.iter 4 (fun j => prev_index j 4) 2 = 2 /\
  prev_index 0 4 = 4 - 1 /\ next_index (4 - 1) 4 = 0.
Proof. split; [split; lia | apply (nav_cycle 4 2); lia]. Defined.

(** C3: for [count > 0], each of [next], [prev] and [random] maps an index
    satisfying [0 <= index < count] to one satisfying it again; [random]
    does so for every value of the random draw. *)
Theorem nav_preserves_range (count i : nat) :
  0 < count -> in_range i count ->
  in_range (next_index i count) count /\
  in_range (prev_index i count) count /\
  (forall r, in_range (random_index r count) count).
Proof.
  unfold in_range. intros Hc Hi. split; [|split].
  - apply next_index_lt; exact Hc.
  - apply prev_index_lt; assumption.
  - intros r. apply random_index_lt; exact Hc.
Qed.

Lemma nav_preserves_range_witness :
  (0 < 5 /\ in_range 4 5) /\
  in_range (next_index 4 5) 5 /\ in_range (prev_index 4 5) 5 /\
  (forall r, in_range (random_index r 5) 5).
Proof.
  split; [split; [lia | unfold in_range; lia] |].
  apply (nav_preserves_range 5 4); [lia | unfold in_range; lia].
Defined.

End NavProofs.

(** ** Binary32 facts used by the geometry *)
Module FloatProofs.
Import F32.

Lemma round_aux_nonneg (m e : Z) (l : location) :
  nonneg (binary_round_aux prec emax false m e l) = true.
Proof.
  unfold binary_round_aux.
  destruct (shr_fexp prec emax m e l) as [mrs e'].
  destruct (shr_fexp prec emax _ e' loc_Exact) as [mrs'' e''].
  destruct (shr_m mrs''); try reflexivity.
  destruct (_ <=? _); reflexivity.
Qed.

Ltac nonneg_cases x :=
  destruct x as [[]|[]| |[] ? ?]; try discriminate.

Lemma mul_nonneg (x y : f32) :
  nonneg x = true -> nonneg y = true -> nonneg (mul x y) = true.
Proof.
  intros Hx Hy. nonneg_cases x; nonneg_cases y; try reflexivity.
  apply round_aux_nonneg.
Qed.

Lemma div_nonneg (x y : f32) :
  nonneg x = true -> nonneg y = true -> nonneg (div x y) = true.
Proof.
  intros Hx Hy. nonneg_cases x; nonneg_cases y; try reflexivity.
  unfold div, SFdiv.
  destruct (SFdiv_core_binary prec emax _ _ _ _) as [[mz ez] lz].
  apply round_aux_nonneg.
Qed.

Lemma of_u32_nonneg (n : Z) : 0 <= n -> nonneg (of_u32 n) = true.
Proof.
  intros Hn. unfold of_u32, binary_normalize.
  destruct n as [|p|p]; [reflexivity | | lia].
  unfold binary_round.
  destruct (shl_align _ _ _) as [mz ez].
  apply round_aux_nonneg.
Qed.

Lemma pos_nonneg (x : f32) : pos x = true -> nonneg x = true.
Proof. destruct x as [[]|[]| |[] ? ?]; easy. Qed.

Lemma abs_opp (x : f32) : abs (opp x) = abs x.
Proof. destruct x; reflexivity. Qed.

(** [x.min(1.0)] of a non-negative (or NaN) [x] has absolute value at most 1. *)
Lemma min_one_abs_le (x : f32) :
  nonneg x = true -> leb (abs (min x one)) one = true.
Proof.
  intros Hx. nonneg_cases x; try reflexivity.
  match goal with |- context [S754_finite false ?m0 ?e0] => rename m0 into m; rename e0 into e end.
  unfold min, ltb, leb, abs, one, SFltb, SFleb, SFabs. cbn [SFcompare].
  match goal with |- context [if ?b then _ else _] => destruct b eqn:Hb end;
    [reflexivity|].
  cbn [SFcompare].
  rewrite (Z.compare_antisym e (-23)) in Hb.
  replace (Pos.compare_cont Eq 8388608 m)
    with (CompOpp (Pos.compare_cont Eq m 8388608)) in Hb
    by (rewrite Pos.compare_cont_antisym; reflexivity).
  destruct (e ?= -23); destruct (Pos.compare_cont Eq m 8388608);
    simpl in Hb; first [reflexivity | discriminate].
Qed.

(** Multiplying a valid binary32 value by [-1.0] flips its sign exactly. *)
Lemma F32_mul_minus_one (x : f32) : valid x = true -> mul x minus_one = opp x.
Proof.
  intros H. destruct x as [s|s| |s m e];
    [destruct s; reflexivity | destruct s; reflexivity | reflexivity |].
  unfold valid in H. simpl in H. unfold bounded, canonical_mantissa in H.
  apply andb_prop in H. destruct H as [H1 H2].
  apply Z.eqb_eq in H1. apply Z.leb_le in H2.
  unfold mul, opp, minus_one, SFopp, SFmul, prec, emax in *.
  rewrite Pos.mul_comm. simpl Pos.mul.
  unfold binary_round_aux, shr_fexp.
  replace (xorb s true) with (negb s) by (destruct s; reflexivity).
  simpl Zdigits2.
  set (d := digits2_pos m) in *.
  rewrite !Pos2Z.inj_succ.
  match goal with |- context [fexp 24 128 ?a - (e + -23)] =>
    replace a with (Z.pos d + e) by lia end.
  rewrite H1. replace (e - (e + -23)) with 23 by lia.
  cbv [shr shr_record_of_loc iter_pos shr_1 orb].
  cbv [shr_m loc_of_shr_record round_nearest_even].
  replace (e + -23 + 23) with e by lia.
  unfold Zdigits2. fold d. rewrite H1, Z.sub_diag.
  cbv [shr shr_record_of_loc shr_m].
  apply Z.leb_le in H2. rewrite H2. reflexivity.
Qed.

Lemma zero_div_nonneg (b : f32) :
  nonneg b = true -> div zero b = zero \/ div zero b = S754_nan.
Proof. intros Hb. nonneg_cases b; simpl; auto. Qed.

Lemma div_zero_nonneg (b : f32) :
  nonneg b = true -> div b zero = S754_infinity false \/ div b zero = S754_nan.
Proof. intros Hb. nonneg_cases b; simpl; auto. Qed.

Lemma mul_zero_or_nan (a z : f32) :
  nonneg a = true -> z = zero \/ z = S754_nan ->
  mul a z = zero \/ mul a z = S754_nan.
Proof. intros Ha [-> | ->]; nonneg_cases a; simpl; auto. Qed.

Lemma mul_inf_or_nan (a z : f32) :
  nonneg a = true -> z = S754_infinity false \/ z = S754_nan ->
  mul a z = S754_infinity false \/ mul a z = S754_nan.
Proof. intros Ha [-> | ->]; nonneg_cases a; simpl; auto. Qed.

Lemma min_zero_or_nan (z : f32) :
  z = zero \/ z = S754_nan -> min z one = zero \/ min z one = one.
Proof. intros [-> | ->]; [left | right]; reflexivity. Qed.

Lemma min_inf_or_nan (z : f32) :
  z = S754_infinity false \/ z = S754_nan -> min z one = one.
Proof. intros [-> | ->]; reflexivity. Qed.

End FloatProofs.

(** ** Geometry (calculate_ratio) *)
Module Geometry.
Import F32 Files Stage FloatProofs.

Lemma calculate_ratio_ratio (sw sh : f32) (st : stage) :
  ratio (calculate_ratio (sw, sh) st) =
  let iw := of_u32 (tex_width st) in
  let ih := of_u32 (tex_height st) in
  let r := (min (mul (div sh sw) (div iw ih)) one,
            min (mul (div sw sh) (div ih iw)) one) in
  if flip st then (opp (fst r), snd r) else r.
Proof. unfold calculate_ratio. simpl. destruct (flip st); reflexivity. Qed.

Lemma calculate_ratio_abs_le_one (sw sh : f32) (st : stage) :
  nonneg sw = true -> nonneg sh = true ->
  0 <= tex_width st -> 0 <= tex_height st ->
  leb (abs (fst (ratio (calculate_ratio (sw, sh) st)))) one = true /\
  leb (abs (snd (ratio (calculate_ratio (sw, sh) st)))) one = true.
Proof.
  intros Hw Hh Hiw Hih. rewrite calculate_ratio_ratio. cbv zeta.
  apply of_u32_nonneg in Hiw. apply of_u32_nonneg in Hih.
  destruct (flip st); simpl; try rewrite abs_opp; split;
    apply min_one_abs_le; apply mul_nonneg; apply div_nonneg; assumption.
Qed.

(** C4: for strictly positive window and image dimensions, [calculate_ratio]
    sets [scaleX = min(1.0, (wh / ww) * (iw / ih))] and
    [scaleY = min(1.0, (ww / wh) * (ih / iw))] (in binary32 arithmetic), and
    neither factor, mirrored or not, has absolute value above 1.0. *)
Theorem calculate_ratio_clamped (sw sh : f32) (st : stage) :
  pos sw = true -> pos sh = true -> 0 < tex_width st -> 0 < tex_height st ->
  (flip st = false ->
   ratio (calculate_ratio (sw, sh) st) =
   (min (mul (div sh sw) (div (of_u32 (tex_width st)) (of_u32 (tex_height st)))) one,
    min (mul (div sw sh) (div (of_u32 (tex_height st)) (of_u32 (tex_width st)))) one)) /\
  leb (abs (fst (ratio (calculate_ratio (sw, sh) st)))) one = true /\
  leb (abs (snd (ratio (calculate_ratio (sw, sh) st)))) one = true.
Proof.
  intros Hw Hh Hiw Hih. split.
  - intros Hf. rewrite calculate_ratio_ratio, Hf. reflexivity.
  - apply calculate_ratio_abs_le_one; try apply pos_nonneg; auto; lia.
Qed.

Lemma calculate_ratio_clamped_witness :
  let st := mkStage 0 true false (zero, zero) 1600 900 [] 0 in
  (pos (of_u32 1000) = true /\ pos (of_u32 800) = true /\
   0 < tex_width st /\ 0 < tex_height st) /\
  (flip st = false ->
   ratio (calculate_ratio (of_u32 1000, of_u32 800) st) =
   (min (mul (div (of_u32 800) (of_u32 1000))
              (div (of_u32 (tex_width st)) (of_u32 (tex_height st)))) one,
    min (mul (div (of_u32 1000) (of_u32 800))
              (div (of_u32 (tex_height st)) (of_u32 (tex_width st)))) one)) /\
  leb (abs (fst (ratio (calculate_ratio (of_u32 1000, of_u32 800) st)))) one = true /\
  leb (abs (snd (ratio (calculate_ratio (of_u32 1000, of_u32 800) st)))) one = true.
Proof.
  intros st. split.
  - repeat split; vm_compute; reflexivity.
  - apply calculate_ratio_clamped; vm_compute; reflexivity.
Defined.

(** C5 fails on binary32: a 600 x 412 window showing a 600 x 412 image
    (equal aspect ratios, not mirrored) gets 0.99999994 for both factors,
    not 1.0. *)
Lemma equal_aspect_not_one :
  let st := mkStage 0 false false (zero, zero) 600 412 [] 0 in
  600 * 412 = 412 * 600 /\
  ratio (calculate_ratio (of_u32 600, of_u32 412) st) =
    (S754_finite false 16777215 (-24), S754_finite false 16777215 (-24)) /\
  ratio (calculate_ratio (of_u32 600, of_u32 412) st) <> (one, one).
Proof.
  intros st. split; [reflexivity|]. split.
  - vm_compute. reflexivity.
  - vm_compute. intros H. discriminate H.
Qed.

(** C5 (amended): for every input, the ratio computed with the mirror flag
    set is the ratio computed without it with [scaleX] negated (IEEE
    multiplication by [-1.0], see [F32_mul_minus_one]) and [scaleY]
    unchanged. *)
Theorem calculate_ratio_mirror (screen : f32 * f32) (st : stage) :
  let r0 := ratio (calculate_ratio screen (set_flip st false)) in
  ratio (calculate_ratio screen (set_flip st true)) = (opp (fst r0), snd r0).
Proof. destruct screen as [sw sh]. rewrite !calculate_ratio_ratio. reflexivity. Qed.

(** C6 fails: [calculate_ratio] has no error path; a 0 x 0 texture gives NaN
    products, clamped by [min] to the ratio (1.0, 1.0). *)
Lemma zero_image_no_error :
  let st := mkStage 0 false false (zero, zero) 0 0 [] 0 in
  mul (div (of_u32 800) (of_u32 1000)) (div (of_u32 0) (of_u32 0)) = S754_nan /\
  ratio (calculate_ratio (of_u32 1000, of_u32 800) st) = (one, one).
Proof. intros st. split; vm_compute; reflexivity. Qed.

(** C6 (amended): for a non-negative window size and a texture with width 0
    or height 0, [calculate_ratio] still returns a ratio: each unmirrored
    factor is 0.0 or 1.0, the one whose numerator dimension is not 0 is 1.0,
    and a 0 x 0 texture gives NaN products and the ratio (1.0, 1.0). *)
Theorem calculate_ratio_zero_dims (sw sh : f32) (st : stage) :
  nonneg sw = true -> nonneg sh = true ->
  0 <= tex_width st -> 0 <= tex_height st ->
  tex_width st = 0 \/ tex_height st = 0 ->
  let r := ratio (calculate_ratio (sw, sh) (set_flip st false)) in
  (fst r = zero \/ fst r = one) /\ (snd r = zero \/ snd r = one) /\
  (tex_width st = 0 -> snd r = one) /\ (tex_height st = 0 -> fst r = one) /\
  (tex_width st = 0 -> tex_height st = 0 ->
   mul (div sh sw) (div (of_u32 0) (of_u32 0)) = S754_nan /\ r = (one, one)).
Proof.
  intros Hw Hh Hiw Hih Hz r. unfold r. rewrite calculate_ratio_ratio. simpl.
  assert (Hsw : nonneg (div sh sw) = true) by (apply div_nonneg; assumption).
  assert (Hws : nonneg (div sw sh) = true) by (apply div_nonneg; assumption).
  apply of_u32_nonneg in Hiw. apply of_u32_nonneg in Hih.
  assert (HW : tex_width st = 0 ->
          min (mul (div sh sw) (div (of_u32 (tex_width st)) (of_u32 (tex_height st)))) one = zero \/
          min (mul (div sh sw) (div (of_u32 (tex_width st)) (of_u32 (tex_height st)))) one = one).
  { intros E. rewrite E. apply min_zero_or_nan, mul_zero_or_nan; [assumption|].
    apply zero_div_nonneg; assumption. }
  assert (HW' : tex_width st = 0 ->
          min (mul (div sw sh) (div (of_u32 (tex_height st)) (of_u32 (tex_width st)))) one = one).
  { intros E. rewrite E. apply min_inf_or_nan, mul_inf_or_nan; [assumption|].
    apply div_zero_nonneg; assumption. }
  assert (HH : tex_height st = 0 ->
          min (mul (div sw sh) (div (of_u32 (tex_height st)) (of_u32 (tex_width st)))) one = zero \/
          min (mul (div sw sh) (div (of_u32 (tex_height st)) (of_u32 (tex_width st)))) one = one).
  { intros E. rewrite E. apply min_zero_or_nan, mul_zero_or_nan; [assumption|].
    apply zero_div_nonneg; assumption. }
  assert (HH' : tex_height st = 0 ->
          min (mul (div sh sw) (div (of_u32 (tex_width st)) (of_u32 (tex_height st)))) one = one).
  { intros E. rewrite E. apply min_inf_or_nan, mul_inf_or_nan; [assumption|].
    apply div_zero_nonneg; assumption. }
  assert (Hnan : mul (div sh sw) (div (of_u32 0) (of_u32 0)) = S754_nan).
  { vm_compute (div (of_u32 0) (of_u32 0)). nonneg_cases (div sh sw); reflexivity. }
  split; [|split; [|split; [|split]]].
  - destruct Hz as [E|E]; [apply HW, E | right; apply HH', E].
  - destruct Hz as [E|E]; [right; apply HW', E | apply HH, E].
  - exact HW'.
  - exact HH'.
  - intros E1 E2. split; [exact Hnan|]. rewrite (HW' E1), (HH' E2). reflexivity.
Qed.

Lemma calculate_ratio_zero_dims_witness :
  let st := mkStage 3 true false (zero, zero) 0 412 [] 0 in
  (nonneg (of_u32 1000) = true /\ nonneg (of_u32 800) = true /\
   0 <= tex_width st /\ 0 <= tex_height st /\ (tex_width st = 0 \/ tex_height st = 0)) /\
  let r := ratio (calculate_ratio (of_u32 1000, of_u32 800) (set_flip st false)) in
  (fst r = zero \/ fst r = one) /\ (snd r = zero \/ snd r = one) /\
  (tex_width st = 0 -> snd r = one) /\ (tex_height st = 0 -> fst r = one) /\
  (tex_width st = 0 -> tex_height st = 0 ->
   mul (div (of_u32 800) (of_u32 1000)) (div (of_u32 0) (of_u32 0)) = S754_nan /\
   r = (one, one)).
Proof.
  intros st. split.
  - split; [reflexivity|]. split; [reflexivity|]. simpl. lia.
  - apply calculate_ratio_zero_dims; [reflexivity | reflexivity | simpl; lia.. ].
Defined.

End Geometry.

(** ** The file list *)
Module FileProofs.
Import Files Examples.

Section Sorting.
Variable A : Type.
Variable key : A -> Z.

Let cmp (a b : A) : comparison := Z.compare (key b) (key a).








End Sorting.

Section Checked.
Variable A : Type.
Variable key : A -> Z.
Variable Q : A -> Prop.
Variable ccmp : A -> A -> outcome comparison.
Hypothesis ccmp_total : forall a b, Q a -> Q b -> ccmp a b = Ok (Z.compare (key b) (key a)).



End Checked.


















End FileProofs.

(** ** The starting index *)
Module StartProofs.
Import F32 Files Stage Examples.

Lemma path_eqb_true (a b : path) : path_eqb a b = true <-> a = b.
Proof. unfold path_eqb. destruct (list_eq_dec String.string_dec a b); split; congruence. Qed.

Lemma find_initial_some (file : path) (l : list path) (k i : nat) :
  find_initial file l k = Some i ->
  (k <= i)%nat /\ nth_error l (i - k) = Some file /\
  (forall j, (j < i - k)%nat -> nth_error l j <> Some file).
Proof.
  revert k. induction l as [|p l IH]; intros k H; simpl in H; [discriminate|].
  destruct (path_eqb file p) eqn:E.
  - injection H as <-. apply path_eqb_true in E. subst.
    rewrite Nat.sub_diag. split; [lia|]. split; [reflexivity|]. intros j Hj. lia.
  - apply IH in H. destruct H as (Hk & Hn & Hb).
    assert (Hne : p <> file).
    { intros <-. assert (path_eqb p p = true) by (apply path_eqb_true; reflexivity).
      congruence. }
    split; [lia|].
    replace (i - k)%nat with (S (i - S k)) by lia. split; [exact Hn|].
    intros [|j] Hj; simpl.
    + intros Hp. injection Hp. exact Hne.
    + apply Hb. lia.
Qed.

Lemma find_initial_none (file : path) (l : list path) (k : nat) :
  find_initial file l k = None -> ~ In file l.
Proof.
  revert k. induction l as [|p l IH]; intros k H Hin; [exact Hin|].
  simpl in H. destruct (path_eqb file p) eqn:E; [discriminate|].
  destruct Hin as [Hp|Hin].
  - subst p. assert (path_eqb file file = true) by (apply path_eqb_true; reflexivity). congruence.
  - exact (IH _ H Hin).
Qed.

Lemma calculate_ratio_fields (screen : f32 * f32) (st : stage) :
  images (calculate_ratio screen st) = images st /\
  current_image_index (calculate_ratio screen st) = current_image_index st /\
  render (calculate_ratio screen st) = RENDERS.
Proof. destruct screen. repeat split. Qed.

Lemma new_index (w : World) (screen : f32 * f32) (st : stage) imgs init :
  get_filelist w = Ok (imgs, init) -> new w screen = Ok st ->
  images st = imgs /\
  current_image_index st = match init with Some i => i | None => 0%nat end.
Proof.
  intros Hg Hn. unfold new in Hn. rewrite Hg in Hn.
  unfold load_image_from_current in Hn. simpl in Hn.
  destruct (nth_error _ _); [|discriminate].
  destruct (decode w p) as [[iw ih]|]; [|discriminate].
  injection Hn as <-. split; apply calculate_ratio_fields.
Qed.

(** C9: when [get_filelist] succeeds with [(imgs, init)], [init] is
    [Some i] for the first index [i] whose entry is path-equal to the
    starting path, and [None] when no entry is; [Stage::new] then starts at
    [i], or at 0 for [None]. For the directory
    [{a.png (mtime 10), b.jpg (mtime 30), c.txt (mtime 20)}] started on
    [b.jpg] the list is [[b.jpg; a.png]] and the starting index 0. *)
Theorem get_filelist_initial (w : World) (imgs : list path) (init : option nat) :
  get_filelist w = Ok (imgs, init) ->
  (exists file,
     last_arg (args w) = Some file /\
     (forall i, init = Some i ->
        nth_error imgs i = Some file /\ (forall j, (j < i)%nat -> nth_error imgs j <> Some file)) /\
     (init = None -> ~ In file imgs)) /\
  (forall screen st, new w screen = Ok st ->
     images st = imgs /\
     current_image_index st = match init with Some i => i | None => 0%nat end) /\
  (let w0 := world [program; ["/"; "pics"; "b.jpg"]%string] in
   get_filelist w0 =
     Ok ([["/"; "pics"; "b.jpg"]; ["/"; "pics"; "a.png"]]%string, Some 0%nat) /\
   exists st, new w0 (of_u32 1000, of_u32 800) = Ok st /\ current_image_index st = 0%nat).
Proof.
  intros Hg. split; [|split].
  - unfold get_filelist in Hg.
    destruct (last_arg (args w)) as [file|]; [|discriminate].
    destruct (parent file) as [dir|]; [|discriminate].
    destruct (read_dir w dir) as [entries|]; [|discriminate].
    destruct (entry_names entries) as [names|]; [|discriminate].
    destruct (sort_checked _ _) as [sorted| |]; try discriminate.
    injection Hg as <- <-. exists file. split; [reflexivity|]. split.
    + intros i Hi. apply find_initial_some in Hi. rewrite Nat.sub_0_r in Hi.
      destruct Hi as (_ & Hn & Hb). split; [exact Hn|].
      intros j Hj. apply Hb. lia.
    + apply find_initial_none.
  - intros screen st Hn. exact (new_index w screen st imgs init Hg Hn).
  - split; [vm_compute; reflexivity|].
    eexists. split; [vm_compute; reflexivity | reflexivity].
Qed.

Lemma get_filelist_initial_witness :
  let w := world [program; ["/"; "pics"; "b.jpg"]%string] in
  get_filelist w = Ok ([["/"; "pics"; "b.jpg"]; ["/"; "pics"; "a.png"]]%string, Some 0%nat) /\
  ((exists file,
     last_arg (args w) = Some file /\
     (forall i, Some 0%nat = Some i ->
        nth_error [["/"; "pics"; "b.jpg"]; ["/"; "pics"; "a.png"]]%string i = Some file /\
        (forall j, (j < i)%nat ->
           nth_error [["/"; "pics"; "b.jpg"]; ["/"; "pics"; "a.png"]]%string j <> Some file)) /\
     (Some 0%nat = None ->
        ~ In file [["/"; "pics"; "b.jpg"]; ["/"; "pics"; "a.png"]]%string)) /\
   (forall screen st, new w screen = Ok st ->
      images st = [["/"; "pics"; "b.jpg"]; ["/"; "pics"; "a.png"]]%string /\
      current_image_index st = 0%nat) /\
   (let w0 := world [program; ["/"; "pics"; "b.jpg"]%string] in
    get_filelist w0 =
      Ok ([["/"; "pics"; "b.jpg"]; ["/"; "pics"; "a.png"]]%string, Some 0%nat) /\
    exists st, new w0 (of_u32 1000, of_u32 800) = Ok st /\ current_image_index st = 0%nat)).
Proof.
  intros w. split; [vm_compute; reflexivity|].
  apply get_filelist_initial. vm_compute. reflexivity.
Defined.

(** C8: with no argument after the program name, [std::env::args().last()]
    is the program's own path, so the "no file specified" check never fires:
    [get_filelist] lists the program's directory and the viewer starts on
    the images found there. *)
Theorem no_argument_uses_program_path :
  let w := world [program] in
  last_arg (args w) = Some program /\
  get_filelist w = Ok ([["."; "cat.png"]]%string, None) /\
  exists st, new w (of_u32 1000, of_u32 800) = Ok st /\
             images st = [["."; "cat.png"]]%string /\ current_image_index st = 0%nat.
Proof.
  intros w. split; [reflexivity|]. split; [vm_compute; reflexivity|].
  eexists. split; [vm_compute; reflexivity|]. split; reflexivity.
Qed.

End StartProofs.

(** ** The redraw counter *)
Module RenderProofs.
Import F32 Files Stage Examples StartProofs.

Lemma load_render (w : World) (screen : f32 * f32) (st st' : stage) :
  load_image_from_current w screen st = Ok st' -> render st' = RENDERS.
Proof.
  unfold load_image_from_current. intros H.
  destruct (nth_error _ _) as [p|]; [|discriminate].
  destruct (decode w p) as [[iw ih]|]; [|discriminate].
  injection H as <-. apply calculate_ratio_fields.
Qed.

Lemma with_no_draw_ok (o : outcome stage) (st' : stage) (d : bool) :
  with_no_draw o = Ok (st', d) -> o = Ok st' /\ d = false.
Proof. destruct o; simpl; intros H; try discriminate. injection H as -> ->. auto. Qed.

Lemma navigation_render (w : World) (screen : f32 * f32) (st st' : stage) (r : nat) :
  (next_image w screen st = Ok st' \/ prev_image w screen st = Ok st' \/
   random_image w screen r st = Ok st') -> render st' = RENDERS.
Proof.
  unfold next_image, prev_image, random_image.
  intros [H|[H|H]]; (destruct (_ && _)%bool || destruct (Nat.eqb _ 0));
    first [discriminate | exact (load_render _ _ _ _ H)].
Qed.

Lemma step_recompute (w : World) (screen : f32 * f32) (st st' : stage) (ev : event) (d : bool) :
  recomputes_geometry ev = true -> step w screen st ev = Ok (st', d) ->
  render st' = RENDERS /\ d = false.
Proof.
  intros Hr Hs. destruct ev as [c| | |r| | | |]; simpl in Hr, Hs; try discriminate.
  - destruct (Ascii.eqb c "u"%char).
    + apply with_no_draw_ok in Hs. destruct Hs as [Hs ->].
      split; [apply (navigation_render w screen st st' 0); auto | reflexivity].
    + destruct (Ascii.eqb c "o"%char).
      * apply with_no_draw_ok in Hs. destruct Hs as [Hs ->].
        split; [apply (navigation_render w screen st st' 0); auto | reflexivity].
      * destruct (Ascii.eqb c "m"%char); [|discriminate].
        injection Hs as <- ->. split; [apply calculate_ratio_fields | reflexivity].
  - apply with_no_draw_ok in Hs. destruct Hs as [Hs ->].
    split; [apply (navigation_render w screen st st' 0); auto | reflexivity].
  - apply with_no_draw_ok in Hs. destruct Hs as [Hs ->].
    split; [apply (navigation_render w screen st st' 0); auto | reflexivity].
  - apply with_no_draw_ok in Hs. destruct Hs as [Hs ->].
    split; [apply (navigation_render w screen st st' r); auto | reflexivity].
  - injection Hs as <- ->. split; [apply calculate_ratio_fields | reflexivity].
Qed.

Lemma new_render (w : World) (screen : f32 * f32) (st : stage) :
  new w screen = Ok st -> render st = RENDERS.
Proof.
  unfold new. destruct (get_filelist w) as [[imgs init]| |]; try discriminate.
  apply load_render.
Qed.

Lemma draw_pos (st : stage) : 0 < render st -> draw st = (set_render st (render st - 1), true).
Proof. intros H. unfold draw. apply Z.ltb_lt in H. rewrite H. reflexivity. Qed.

Lemma draw_zero (st : stage) : render st <= 0 -> draw st = (st, false).
Proof.
  intros H. unfold draw. destruct (Z.ltb_spec 0 (render st)); [lia | reflexivity].
Qed.

Lemma frames_draws (n : nat) (st : stage) :
  0 <= render st ->
  fst (frames n st) =
  repeat true (Nat.min n (Z.to_nat (render st))) ++ repeat false (n - Z.to_nat (render st)).
Proof.
  revert st. induction n as [|n IH]; intros st H; [reflexivity|].
  simpl frames. destruct (Z.ltb_spec 0 (render st)) as [Hp|Hz].
  - rewrite (draw_pos st Hp).
    destruct (frames n (set_render st (render st - 1))) as [ds st2] eqn:E.
    simpl. pose proof (IH (set_render st (render st - 1))) as IH'.
    rewrite E in IH'. simpl in IH'. rewrite IH' by lia.
    replace (Z.to_nat (render st)) with (S (Z.to_nat (render st - 1))) by lia.
    reflexivity.
  - rewrite (draw_zero st Hz).
    destruct (frames n st) as [ds st2] eqn:E.
    simpl. pose proof (IH st H) as IH'. rewrite E in IH'. simpl in IH'.
    rewrite IH'. replace (Z.to_nat (render st)) with 0%nat by lia.
    rewrite Nat.min_0_r, !Nat.sub_0_r. reflexivity.
Qed.

(** C7: an event that recomputes the geometry (navigation, mirror toggle,
    resize) and the initial load set [render] to 3; a frame tick with
    [render > 0] issues one draw and decrements it, a tick with [render = 0]
    issues none; so after such an event the next [n] ticks draw exactly on
    the first [min n 3] of them and are idle afterwards. *)
Theorem render_rearm (w : World) (screen : f32 * f32) (st st' : stage) (ev : event)
  (d : bool) (n : nat) :
  recomputes_geometry ev = true -> step w screen st ev = Ok (st', d) ->
  render st' = RENDERS /\ d = false /\
  fst (frames n st') = repeat true (Nat.min n 3) ++ repeat false (n - 3) /\
  (forall s, 0 < render s -> draw s = (set_render s (render s - 1), true)) /\
  (forall s, render s = 0 -> draw s = (s, false)) /\
  (forall s0, new w screen = Ok s0 ->
     render s0 = RENDERS /\
     fst (frames n s0) = repeat true (Nat.min n 3) ++ repeat false (n - 3)).
Proof.
  intros Hr Hs. destruct (step_recompute w screen st st' ev d Hr Hs) as [Hst' Hd].
  split; [exact Hst'|]. split; [exact Hd|]. split.
  - rewrite frames_draws; rewrite Hst'; [reflexivity | unfold RENDERS; lia].
  - split; [exact draw_pos|]. split.
    + intros s Hs0. apply draw_zero. lia.
    + intros s0 Hn. apply new_render in Hn. split; [exact Hn|].
      rewrite frames_draws; rewrite Hn; [reflexivity | unfold RENDERS; lia].
Qed.

(** C10: in every reachable stage, [0 <= render <= 3]. *)
Theorem render_in_bounds (w : World) (st : stage) :
  reachable w st -> 0 <= render st <= RENDERS.
Proof.
  intros H. induction H as [screen st Hn | screen st ev st' d Hr IH Hs].
  - rewrite (new_render w screen st Hn). unfold RENDERS. lia.
  - destruct (recomputes_geometry ev) eqn:Er.
    + rewrite (proj1 (step_recompute w screen st st' ev d Er Hs)). unfold RENDERS. lia.
    + destruct ev as [c| | |r| | | |]; simpl in Er, Hs; try discriminate.
      * destruct (Ascii.eqb c "u"%char); [discriminate|].
        destruct (Ascii.eqb c "o"%char); [discriminate|].
        destruct (Ascii.eqb c "m"%char); [discriminate|].
        destruct (Ascii.eqb c "f"%char).
        -- injection Hs as <- _. exact IH.
        -- destruct (Ascii.eqb c "q"%char); [discriminate|].
           injection Hs as <- _. exact IH.
      * injection Hs as <- _. exact IH.
      * unfold draw in Hs. destruct (Z.ltb_spec 0 (render st)).
        -- injection Hs as <- _. simpl. lia.
        -- injection Hs as <- _. exact IH.
Qed.

Lemma render_in_bounds_witness :
  let w := world [program; ["/"; "pics"; "b.jpg"]%string] in
  let st := match new w (of_u32 1000, of_u32 800) with
            | Ok s => s
            | _ => mkStage 0 false false (zero, zero) 0 0 [] 0
            end in
  reachable w st /\ 0 <= render st <= RENDERS.
Proof.
  intros w st.
  assert (H : reachable w st).
  { apply (reach_new w (of_u32 1000, of_u32 800)). vm_compute. reflexivity. }
  split; [exact H | exact (render_in_bounds w st H)].
Defined.

Lemma render_rearm_witness :
  let w := world [program; ["/"; "pics"; "b.jpg"]%string] in
  let st := match new w (of_u32 1000, of_u32 800) with
            | Ok s => s
            | _ => mkStage 0 false false (zero, zero) 0 0 [] 0
            end in
  let st' := match step w (of_u32 1000, of_u32 800) st KeyRight with
             | Ok (s, _) => s
             | _ => st
             end in
  (recomputes_geometry KeyRight = true /\
   step w (of_u32 1000, of_u32 800) st KeyRight = Ok (st', false)) /\
  render st' = RENDERS /\ false = false /\
  fst (frames 5 st') = repeat true (Nat.min 5 3) ++ repeat false (5 - 3) /\
  (forall s, 0 < render s -> draw s = (set_render s (render s - 1), true)) /\
  (forall s, render s = 0 -> draw s = (s, false)) /\
  (forall s0, new w (of_u32 1000, of_u32 800) = Ok s0 ->
     render s0 = RENDERS /\
     fst (frames 5 s0) = repeat true (Nat.min 5 3) ++ repeat false (5 - 3)).
Proof.
  intros w st st'.
  assert (H : step w (of_u32 1000, of_u32 800) st KeyRight = Ok (st', false)).
  { vm_compute. reflexivity. }
  split; [split; [reflexivity | exact H]|].
  exact (render_rearm w (of_u32 1000, of_u32 800) st st' KeyRight false 5 eq_refl H).
Defined.

End RenderProofs.

(** ** Further properties of the stage and the file filter *)
Module Extras.
Import F32 Files Stage Examples MoreExamples NavProofs FileProofs StartProofs RenderProofs.

Lemma split_last_dot_rev_some (rl a b : list ascii) :
  split_last_dot_rev rl = Some (a, b) <-> rl = a ++ "."%char :: b /\ ~ In "."%char a.
Proof.
  revert a b. induction rl as [|c rl IH]; intros a b; simpl.
  - split; [discriminate|]. intros [H _]. destruct a; discriminate.
  - destruct (Ascii.eqb_spec c "."%char) as [Ec|Ec].
    + split.
      * intros H. injection H as <- <-. subst. split; [reflexivity | intros []].
      * intros [H Hn]. destruct a as [|x a]; simpl in H.
        -- injection H as _ ->. reflexivity.
        -- injection H as -> _. exfalso. apply Hn. left. exact Ec.
    + destruct (split_last_dot_rev rl) as [[a0 b0]|] eqn:E.
      * split.
        -- intros H. injection H as <- <-.
           destruct (proj1 (IH a0 b0) eq_refl) as [-> Hn]. split; [reflexivity|].
           intros [Hc|Hc]; [exact (Ec Hc) | exact (Hn Hc)].
        -- intros [H Hn]. destruct a as [|x a]; simpl in H.
           ++ injection H as Hc _. contradiction.
           ++ injection H as -> Hrl.
              assert (Ha : Some (a0, b0) = Some (a, b)).
              { apply IH. split; [exact Hrl|]. intros Hi. apply Hn. right. exact Hi. }
              injection Ha as -> ->. reflexivity.
      * split; [discriminate|]. intros [H Hn]. destruct a as [|x a]; simpl in H.
        -- injection H as Hc _. contradiction.
        -- injection H as -> Hrl.
           assert (Ha : None = Some (a, b)).
           { apply IH. split; [exact Hrl|]. intros Hi. apply Hn. right. exact Hi. }
           discriminate.
Qed.

Lemma string_of_nil (s : string) : list_ascii_of_string s = [] -> s = ""%string.
Proof.
  intros H. rewrite <- (string_of_list_ascii_of_string s), H. reflexivity.
Qed.

Lemma file_name_join (dir : path) (name : string) :
  file_name (join dir name) =
  if ((name =? "/")%string || (name =? ".")%string || (name =? "..")%string)
  then None else Some name.
Proof. unfold file_name, join. rewrite rev_app_distr. reflexivity. Qed.

(** X1: a directory entry passes the filter of [get_filelist] exactly when
    its name is [base.ext] with a non-empty [base] and [ext] (the text after
    the last '.') byte-for-byte one of the supported extensions. *)
Theorem is_supported_join (dir : path) (name : string) :
  is_supported (join dir name) = true <->
  exists base ext,
    list_ascii_of_string name = base ++ "."%char :: list_ascii_of_string ext /\
    base <> [] /\ ~ In "."%char (list_ascii_of_string ext) /\
    In ext SUPPORTED_IMAGE_TYPES.
Proof.
  unfold is_supported, extension. rewrite file_name_join.
  destruct ((name =? "/")%string || (name =? ".")%string || (name =? "..")%string) eqn:Hs.
  - split; [discriminate|]. intros (base & ext & H & Hb & Hn & Hin).
    exfalso. rewrite !orb_true_iff in Hs. destruct Hs as [[Hs|Hs]|Hs];
      apply String.eqb_eq in Hs; subst name; simpl in H;
      destruct base as [|x [|y base]]; simpl in H; try congruence;
      injection H as H1 H2; try (destruct base; discriminate).
    + (* name = ".." *)
      symmetry in H2. apply string_of_nil in H2. subst ext. simpl in Hin. intuition discriminate.
  - apply orb_false_iff in Hs as [_ Hs]. rewrite Hs.
    split.
    + destruct (split_last_dot_rev (rev (list_ascii_of_string name))) as [[a b]|] eqn:E;
        [|discriminate].
      apply split_last_dot_rev_some in E as [E Hn].
      destruct b as [|c b]; [discriminate|]. intros Hx.
      exists (rev (c :: b)), (string_of_list_ascii (rev a)).
      rewrite list_ascii_of_string_of_list_ascii. split; [|split; [|split]].
      * rewrite <- (rev_involutive (list_ascii_of_string name)), E.
        rewrite rev_app_distr. simpl. rewrite <- app_assoc. reflexivity.
      * intros Hr. apply (f_equal (@rev ascii)) in Hr. rewrite rev_involutive in Hr.
        discriminate.
      * intros Hi. apply Hn, in_rev, Hi.
      * apply existsb_exists in Hx as (x & Hx & Ex). apply String.eqb_eq in Ex.
        rewrite Ex. exact Hx.
    + intros (base & ext & H & Hb & Hn & Hin).
      assert (E : split_last_dot_rev (rev (list_ascii_of_string name)) =
                  Some (rev (list_ascii_of_string ext), rev base)).
      { apply split_last_dot_rev_some. split.
        - rewrite H, rev_app_distr. simpl. rewrite <- app_assoc. reflexivity.
        - intros Hi. apply Hn, in_rev, Hi. }
      rewrite E. destruct (rev base) eqn:Er.
      * apply (f_equal (@rev ascii)) in Er. rewrite rev_involutive in Er. contradiction.
      * rewrite rev_involutive, string_of_list_ascii_of_string.
        apply existsb_exists. exists ext. split; [exact Hin | apply String.eqb_refl].
Qed.

Lemma is_supported_join_witness :
  list_ascii_of_string "b.jpg" = ["b"%char] ++ "."%char :: list_ascii_of_string "jpg" /\
  is_supported (join ["/"; "pics"]%string "b.jpg") = true.
Proof.
  split; [reflexivity|]. apply is_supported_join.
  exists ["b"%char], "jpg"%string. split; [reflexivity|]. split; [discriminate|].
  split; [simpl; intuition discriminate | simpl; auto].
Defined.

(** X2: pressing 'm' twice gives the stage a single recomputation would:
    the mirror flag is back to its value and the ratio is the unmirrored
    one again. *)
Theorem toggle_flip_twice (screen : f32 * f32) (st : stage) :
  toggle_flip screen (toggle_flip screen st) = calculate_ratio screen st.
Proof.
  destruct st as [rd fl fs ra tw th im ix], screen as [sw sh].
  unfold toggle_flip, calculate_ratio. simpl. destruct fl; reflexivity.
Qed.

(** X3: recomputing the ratio twice for the same window size (two resize
    events) leaves the same stage as recomputing it once. *)
Theorem calculate_ratio_idempotent (screen : f32 * f32) (st : stage) :
  calculate_ratio screen (calculate_ratio screen st) = calculate_ratio screen st.
Proof.
  destruct st as [rd fl fs ra tw th im ix], screen as [sw sh].
  unfold calculate_ratio. simpl. destruct fl; reflexivity.
Qed.

(** X4: the 'f' key only flips the fullscreen flag: it issues no draw, does
    not reset the redraw counter, keeps the ratio, the image list and the
    index, and pressing it twice restores the stage. *)
Theorem fullscreen_key (w : World) (screen : f32 * f32) (st : stage) :
  exists st',
    step w screen st (CharEvent "f"%char) = Ok (st', false) /\
    fullscreen st' = negb (fullscreen st) /\
    render st' = render st /\ ratio st' = ratio st /\ flip st' = flip st /\
    images st' = images st /\ current_image_index st' = current_image_index st /\
    step w screen st' (CharEvent "f"%char) = Ok (st, false).
Proof.
  exists (toggle_fullscreen st). simpl.
  destruct st as [rd fl fs ra tw th im ix]. simpl.
  repeat split; destruct fs; reflexivity.
Qed.

Lemma load_ok (w : World) (screen : f32 * f32) (st st' : stage) :
  load_image_from_current w screen st = Ok st' ->
  images st' = images st /\ current_image_index st' = current_image_index st /\
  (current_image_index st < List.length (images st))%nat.
Proof.
  unfold load_image_from_current. intros H.
  destruct (nth_error _ _) as [p|] eqn:En; [|discriminate].
  destruct (decode w p) as [[iw ih]|]; [|discriminate].
  injection H as <-. destruct (calculate_ratio_fields screen (set_texture st iw ih)) as (H1 & H2 & _).
  rewrite H1, H2. split; [reflexivity|]. split; [reflexivity|].
  apply nth_error_Some. congruence.
Qed.

Lemma step_images (w : World) (screen : f32 * f32) (st st' : stage) (ev : event) (d : bool) :
  step w screen st ev = Ok (st', d) ->
  images st' = images st /\
  (current_image_index st' = current_image_index st \/
   (current_image_index st' < List.length (images st'))%nat).
Proof.
  assert (Hnav : forall o, o = Ok st' ->
            (o = next_image w screen st \/ o = prev_image w screen st \/
             exists r, o = random_image w screen r st) ->
            images st' = images st /\
            (current_image_index st' = current_image_index st \/
             (current_image_index st' < List.length (images st'))%nat)).
  { intros o Ho Hw. subst o.
    destruct Hw as [Hw|[Hw|[r Hw]]]; symmetry in Hw;
      unfold next_image, prev_image, random_image in Hw;
      (destruct (_ && _)%bool || destruct (Nat.eqb _ 0)); try discriminate;
      apply load_ok in Hw; destruct Hw as (H1 & H2 & H3); simpl in *;
      split; try exact H1; right; rewrite H1, H2; exact H3. }
  assert (Hcr : forall st0, images st0 = images st ->
            current_image_index st0 = current_image_index st ->
            images (calculate_ratio screen st0) = images st /\
            (current_image_index (calculate_ratio screen st0) = current_image_index st \/
             (current_image_index (calculate_ratio screen st0) <
              List.length (images (calculate_ratio screen st0)))%nat)).
  { intros st0 E1 E2. destruct (calculate_ratio_fields screen st0) as (F1 & F2 & _).
    rewrite F1, F2. auto. }
  destruct ev as [c| | |r| | | |]; simpl; intros Hs.
  - destruct (Ascii.eqb c "u"%char);
      [apply with_no_draw_ok in Hs; destruct Hs as [Hs _]; apply (Hnav _ Hs); auto|].
    destruct (Ascii.eqb c "o"%char);
      [apply with_no_draw_ok in Hs; destruct Hs as [Hs _]; apply (Hnav _ Hs); auto|].
    destruct (Ascii.eqb c "m"%char);
      [injection Hs as <- _; apply Hcr; reflexivity|].
    destruct (Ascii.eqb c "f"%char); [injection Hs as <- _; auto|].
    destruct (Ascii.eqb c "q"%char); [discriminate|]. injection Hs as <- _. auto.
  - apply with_no_draw_ok in Hs. destruct Hs as [Hs _]. apply (Hnav _ Hs); auto.
  - apply with_no_draw_ok in Hs. destruct Hs as [Hs _]. apply (Hnav _ Hs); auto.
  - apply with_no_draw_ok in Hs. destruct Hs as [Hs _]. apply (Hnav _ Hs); eauto.
  - discriminate.
  - injection Hs as <- _. auto.
  - injection Hs as <- _. apply Hcr; reflexivity.
  - unfold draw in Hs. destruct (0 <? render st)%Z; injection Hs as <- _; auto.
Qed.

(** X5: every reachable stage holds exactly the image list [get_filelist]
    built (it never changes), that list is non-empty, and the current index
    is in range. *)
Theorem reachable_images (w : World) (st : stage) :
  reachable w st ->
  exists init, get_filelist w = Ok (images st, init) /\
    (0 < List.length (images st))%nat /\
    (current_image_index st < List.length (images st))%nat.
Proof.
  intros H. induction H as [screen st Hn | screen st ev st' d Hr IH Hs].
  - unfold new in Hn. destruct (get_filelist w) as [[imgs init]| |] eqn:Hg; try discriminate.
    apply load_ok in Hn. simpl in Hn. destruct Hn as (H1 & H2 & H3).
    exists init. rewrite H1. split; [reflexivity|]. split; lia.
  - destruct IH as (init & Hg & Hpos & Hidx).
    destruct (step_images w screen st st' ev d Hs) as [Hi [Hx|Hx]];
      exists init; rewrite Hi; (split; [exact Hg|]); split; try exact Hpos.
    + rewrite Hx. exact Hidx.
    + rewrite <- Hi. exact Hx.
Qed.

Lemma reachable_images_witness :
  let w := world [program; ["/"; "pics"; "b.jpg"]%string] in
  let st := match new w (of_u32 1000, of_u32 800) with
            | Ok s => s
            | _ => mkStage 0 false false (zero, zero) 0 0 [] 0
            end in
  reachable w st /\
  exists init, get_filelist w = Ok (images st, init) /\
    (0 < List.length (images st))%nat /\
    (current_image_index st < List.length (images st))%nat.
Proof.
  intros w st.
  assert (H : reachable w st).
  { apply (reach_new w (of_u32 1000, of_u32 800)). vm_compute. reflexivity. }
  split; [exact H | exact (reachable_images w st H)].
Defined.

(** X6: when the directory holds no supported image, [Stage::new] panics
    with "invalid image index" instead of starting. *)
Theorem new_no_images (w : World) (screen : f32 * f32) (init : option nat) :
  get_filelist w = Ok ([], init) -> new w screen = Panic "invalid image index".
Proof.
  intros Hg. unfold new. rewrite Hg. unfold load_image_from_current. simpl.
  destruct init as [[|i]|]; reflexivity.
Qed.

Lemma new_no_images_witness :
  get_filelist no_images_world = Ok ([], None) /\
  new no_images_world (of_u32 1000, of_u32 800) = Panic "invalid image index".
Proof.
  assert (H : get_filelist no_images_world = Ok ([], None)) by (vm_compute; reflexivity).
  split; [exact H | exact (new_no_images no_images_world _ None H)].
Defined.

(** X7: navigation never skips a file it cannot decode: when the image that
    [next], [prev] or [random] selects fails to decode, the program panics. *)
Theorem navigation_fatal_decode (w : World) (screen : f32 * f32) (st : stage) :
  (0 < List.length (images st))%nat ->
  (forall p, nth_error (images st)
               (Nav.next_index (current_image_index st) (List.length (images st))) = Some p ->
     decode w p = None ->
     next_image w screen st = Panic "called `Result::unwrap()` on an `Err` value") /\
  (forall p, nth_error (images st)
               (Nav.prev_index (current_image_index st) (List.length (images st))) = Some p ->
     decode w p = None ->
     prev_image w screen st = Panic "called `Result::unwrap()` on an `Err` value") /\
  (forall r p, nth_error (images st) (Nav.random_index r (List.length (images st))) = Some p ->
     decode w p = None ->
     random_image w screen r st = Panic "called `Result::unwrap()` on an `Err` value").
Proof.
  intros Hl. assert (Hn : Nat.eqb (List.length (images st)) 0 = false)
    by (apply Nat.eqb_neq; lia).
  split; [|split].
  - intros p Hp Hd. unfold next_image. rewrite Hn.
    unfold load_image_from_current. simpl. rewrite Hp, Hd. reflexivity.
  - intros p Hp Hd. unfold prev_image. rewrite Hn, andb_false_r.
    unfold load_image_from_current. simpl. rewrite Hp, Hd. reflexivity.
  - intros r p Hp Hd. unfold random_image. rewrite Hn.
    unfold load_image_from_current. simpl. rewrite Hp, Hd. reflexivity.
Qed.

Lemma navigation_fatal_decode_witness :
  let st := match new broken_world (of_u32 1000, of_u32 800) with
            | Ok s => s
            | _ => mkStage 0 false false (zero, zero) 0 0 [] 0
            end in
  (0 < List.length (images st))%nat /\
  next_image broken_world (of_u32 1000, of_u32 800) st =
    Panic "called `Result::unwrap()` on an `Err` value".
Proof.
  intros st.
  assert (Hl : (0 < List.length (images st))%nat) by (vm_compute; lia).
  split; [exact Hl|].
  apply (proj1 (navigation_fatal_decode broken_world (of_u32 1000, of_u32 800) st Hl)
           ["/"; "pics"; "a.png"]%string); vm_compute; reflexivity.
Defined.

Lemma next_prev_index (i count : nat) :
  (i < count)%nat -> Nav.next_index (Nav.prev_index i count) count = i.
Proof.
  intros Hi. unfold Nav.next_index, Nav.prev_index.
  destruct (Nat.eqb_spec i 0) as [->|E].
  - replace (count - 1 + 1)%nat with count by lia. apply Nat.Div0.mod_same.
  - replace (i - 1 + 1)%nat with i by lia. apply Nat.mod_small. exact Hi.
Qed.

(** X8: on a stage whose index is in range, [next_image] followed by
    [prev_image] (and [prev_image] followed by [next_image]), when both
    loads succeed, comes back to the same image list and index. *)
Theorem next_prev_stage (w : World) (screen : f32 * f32) (st st1 st2 : stage) :
  (current_image_index st < List.length (images st))%nat ->
  (next_image w screen st = Ok st1 /\ prev_image w screen st1 = Ok st2 \/
   prev_image w screen st = Ok st1 /\ next_image w screen st1 = Ok st2) ->
  images st2 = images st /\ current_image_index st2 = current_image_index st.
Proof.
  intros Hi H.
  assert (Hn : Nat.eqb (List.length (images st)) 0 = false)
    by (apply Nat.eqb_neq; lia).
  destruct H as [[H1 H2]|[H1 H2]].
  - unfold next_image in H1. rewrite Hn in H1. apply load_ok in H1.
    simpl in H1. destruct H1 as (I1 & X1 & _).
    unfold prev_image in H2. rewrite I1, Hn, andb_false_r in H2.
    apply load_ok in H2. simpl in H2. destruct H2 as (I2 & X2 & _).
    rewrite I2, I1. split; [reflexivity|]. rewrite X2, X1.
    apply prev_next_index. exact Hi.
  - unfold prev_image in H1. rewrite Hn, andb_false_r in H1. apply load_ok in H1.
    simpl in H1. destruct H1 as (I1 & X1 & _).
    unfold next_image in H2. rewrite I1, Hn in H2.
    apply load_ok in H2. simpl in H2. destruct H2 as (I2 & X2 & _).
    rewrite I2, I1. split; [reflexivity|]. rewrite X2, X1.
    apply next_prev_index. exact Hi.
Qed.

Lemma next_prev_stage_witness :
  let w := world [program; ["/"; "pics"; "b.jpg"]%string] in
  let scr := (of_u32 1000, of_u32 800) in
  let st := match new w scr with
            | Ok s => s
            | _ => mkStage 0 false false (zero, zero) 0 0 [] 0
            end in
  let st1 := match next_image w scr st with Ok s => s | _ => st end in
  let st2 := match prev_image w scr st1 with Ok s => s | _ => st end in
  ((current_image_index st < List.length (images st))%nat /\
   next_image w scr st = Ok st1 /\ prev_image w scr st1 = Ok st2) /\
  images st2 = images st /\ current_image_index st2 = current_image_index st.
Proof.
  intros w scr st st1 st2.
  assert (Hi : (current_image_index st < List.length (images st))%nat)
    by (vm_compute; lia).
  assert (H1 : next_image w scr st = Ok st1) by (vm_compute; reflexivity).
  assert (H2 : prev_image w scr st1 = Ok st2) by (vm_compute; reflexivity).
  split; [split; [exact Hi | split; [exact H1 | exact H2]]|].
  exact (next_prev_stage w scr st st1 st2 Hi (or_introl (conj H1 H2))).
Defined.






Lemma with_no_draw_exit (o : outcome stage) : with_no_draw o = Exit -> o = Exit.
Proof. destruct o; simpl; congruence. Qed.

Lemma load_not_exit (w : World) (screen : f32 * f32) (st : stage) :
  load_image_from_current w screen st <> Exit.
Proof.
  unfold load_image_from_current.
  destruct (nth_error _ _) as [p|]; [|discriminate].
  destruct (decode w p) as [[iw ih]|]; discriminate.
Qed.

Lemma navigation_not_exit (w : World) (screen : f32 * f32) (st : stage) (r : nat) :
  next_image w screen st <> Exit /\ prev_image w screen st <> Exit /\
  random_image w screen r st <> Exit.
Proof.
  unfold next_image, prev_image, random_image.
  split; [|split]; (destruct (_ && _)%bool || destruct (Nat.eqb _ 0));
    first [discriminate | apply load_not_exit].
Qed.

(** X10: the only handled events that end the program are the 'q'
    character and the Escape key; navigation, even when it fails, never
    exits (it panics instead). *)
Theorem step_exit (w : World) (screen : f32 * f32) (st : stage) (ev : event) :
  step w screen st ev = Exit <-> ev = CharEvent "q"%char \/ ev = KeyEscape.
Proof.
  destruct (navigation_not_exit w screen st 0) as (Nn & Np & _).
  destruct ev as [c| | |r| | | |]; simpl.
  - destruct (Ascii.eqb_spec c "u"%char) as [->|Hu].
    { split; [intros H; apply with_no_draw_exit in H; contradiction|].
      intros [H|H]; discriminate. }
    destruct (Ascii.eqb_spec c "o"%char) as [->|Ho].
    { split; [intros H; apply with_no_draw_exit in H; contradiction|].
      intros [H|H]; discriminate. }
    destruct (Ascii.eqb_spec c "m"%char) as [->|Hm].
    { split; [discriminate|]. intros [H|H]; discriminate. }
    destruct (Ascii.eqb_spec c "f"%char) as [->|Hf].
    { split; [discriminate|]. intros [H|H]; discriminate. }
    destruct (Ascii.eqb_spec c "q"%char) as [->|Hq].
    { split; auto. }
    split; [discriminate|]. intros [H|H]; [injection H; contradiction | discriminate].
  - split; [intros H; apply with_no_draw_exit in H; contradiction|].
    intros [H|H]; discriminate.
  - split; [intros H; apply with_no_draw_exit in H; contradiction|].
    intros [H|H]; discriminate.
  - split; [|intros [H|H]; discriminate].
    intros H; apply with_no_draw_exit in H.
    destruct (proj2 (proj2 (navigation_not_exit w screen st r)) H).
  - split; auto.
  - split; [discriminate|]. intros [H|H]; discriminate.
  - split; [discriminate|]. intros [H|H]; discriminate.
  - unfold draw. split; [destruct (0 <? render st)%Z; discriminate|].
    intros [H|H]; discriminate.
Qed.

(** X11: a draw call is issued only on a frame tick with [render > 0], and
    that tick changes nothing but decrementing [render]. *)
Theorem draw_only_on_frame (w : World) (screen : f32 * f32) (st st' : stage) (ev : event) :
  step w screen st ev = Ok (st', true) ->
  ev = Frame /\ (0 < render st)%Z /\ st' = set_render st (render st - 1)%Z.
Proof.
  destruct ev as [c| | |r| | | |]; simpl; intros H.
  - destruct (Ascii.eqb c "u"%char);
      [apply with_no_draw_ok in H; destruct H; discriminate|].
    destruct (Ascii.eqb c "o"%char);
      [apply with_no_draw_ok in H; destruct H; discriminate|].
    destruct (Ascii.eqb c "m"%char); [injection H; discriminate|].
    destruct (Ascii.eqb c "f"%char); [injection H; discriminate|].
    destruct (Ascii.eqb c "q"%char); [discriminate|]. injection H; discriminate.
  - apply with_no_draw_ok in H. destruct H; discriminate.
  - apply with_no_draw_ok in H. destruct H; discriminate.
  - apply with_no_draw_ok in H. destruct H; discriminate.
  - discriminate.
  - injection H; discriminate.
  - injection H; discriminate.
  - unfold draw in H. destruct (Z.ltb_spec 0 (render st)) as [Hp|Hz].
    + injection H as <-. auto.
    + injection H; discriminate.
Qed.

Lemma draw_only_on_frame_witness :
  let st := mkStage 2 false false (zero, zero) 640 480 [["/"; "pics"; "a.png"]%string] 0 in
  let w := world [program; ["/"; "pics"; "a.png"]%string] in
  step w (of_u32 1000, of_u32 800) st Frame = Ok (set_render st 1, true) /\
  Frame = Frame /\ (0 < render st)%Z /\ set_render st 1 = set_render st (render st - 1)%Z.
Proof.
  intros st w.
  assert (H : step w (of_u32 1000, of_u32 800) st Frame = Ok (set_render st 1, true))
    by reflexivity.
  split; [exact H | exact (draw_only_on_frame w _ st _ Frame H)].
Defined.

(** X12: a run of [n] frame ticks changes nothing but [render], which
    drops by one per tick down to 0 and then stays there. *)
Theorem frames_final (n : nat) (st : stage) :
  (0 <= render st)%Z ->
  snd (frames n st) =
  set_render st (render st - Z.of_nat (Nat.min n (Z.to_nat (render st))))%Z.
Proof.
  revert st. induction n as [|n IH]; intros st H.
  - destruct st. unfold set_render. simpl. f_equal. lia.
  - simpl frames. destruct (Z.ltb_spec 0 (render st)) as [Hp|Hz].
    + rewrite (draw_pos st Hp).
      destruct (frames n (set_render st (render st - 1))) as [ds st2] eqn:E.
      simpl. pose proof (IH (set_render st (render st - 1))) as IH'.
      rewrite E in IH'. simpl in IH'. rewrite IH' by lia.
      replace (Z.to_nat (render st)) with (S (Z.to_nat (render st - 1))) by lia.
      cbn [Nat.min]. rewrite Nat2Z.inj_succ.
      unfold set_render. simpl. f_equal. lia.
    + rewrite (draw_zero st Hz).
      destruct (frames n st) as [ds st2] eqn:E.
      simpl. pose proof (IH st H) as IH'. rewrite E in IH'. simpl in IH'.
      rewrite IH'. replace (Z.to_nat (render st)) with 0%nat by lia.
      rewrite !Nat.min_0_r. reflexivity.
Qed.

Lemma frames_final_witness :
  let st := mkStage 3 true false (zero, zero) 640 480 [["/"; "pics"; "a.png"]%string] 0 in
  (0 <= render st)%Z /\ snd (frames 5 st) = set_render st 0%Z.
Proof.
  intros st. assert (H : (0 <= render st)%Z) by (simpl; lia).
  split; [exact H|]. rewrite (frames_final 5 st H). reflexivity.
Defined.

Lemma calculate_ratio_tex (screen : f32 * f32) (st : stage) :
  tex_width (calculate_ratio screen st) = tex_width st /\
  tex_height (calculate_ratio screen st) = tex_height st.
Proof. destruct screen. split; reflexivity. Qed.

Lemma load_tex (w : World) (screen : f32 * f32) (st st' : stage) :
  load_image_from_current w screen st = Ok st' ->
  exists p, nth_error (images st') (current_image_index st') = Some p /\
            decode w p = Some (tex_width st', tex_height st').
Proof.
  unfold load_image_from_current. intros H.
  destruct (nth_error _ _) as [p|] eqn:En; [|discriminate].
  destruct (decode w p) as [[iw ih]|] eqn:Ed; [|discriminate].
  injection H as <-. exists p.
  destruct (calculate_ratio_fields screen (set_texture st iw ih)) as (F1 & F2 & _).
  destruct (calculate_ratio_tex screen (set_texture st iw ih)) as (T1 & T2).
  rewrite F1, F2, T1, T2. split; [exact En | exact Ed].
Qed.

Lemma navigation_load (w : World) (screen : f32 * f32) (st st' : stage) (r : nat) :
  (next_image w screen st = Ok st' \/ prev_image w screen st = Ok st' \/
   random_image w screen r st = Ok st') ->
  exists x, load_image_from_current w screen x = Ok st'.
Proof.
  unfold next_image, prev_image, random_image.
  intros [H|[H|H]]; (destruct (_ && _)%bool || destruct (Nat.eqb _ 0));
    first [discriminate | eexists; exact H].
Qed.

(** X13: on every reachable stage the texture on screen has the decoded
    dimensions of the image at the current index: the index names a file
    of the list, and that file decoded to [tex_width] by [tex_height]. *)
Theorem reachable_texture (w : World) (st : stage) :
  reachable w st ->
  exists p, nth_error (images st) (current_image_index st) = Some p /\
            decode w p = Some (tex_width st, tex_height st).
Proof.
  intros H. induction H as [screen st Hn | screen st ev st' d Hr IH Hs].
  - unfold new in Hn. destruct (get_filelist w) as [[imgs init]| |]; try discriminate.
    exact (load_tex _ _ _ _ Hn).
  - destruct IH as (p & Hp & Hd).
    assert (Hkeep : forall st0, images st0 = images st ->
              current_image_index st0 = current_image_index st ->
              tex_width st0 = tex_width st -> tex_height st0 = tex_height st ->
              exists p, nth_error (images st0) (current_image_index st0) = Some p /\
                        decode w p = Some (tex_width st0, tex_height st0)).
    { intros st0 E1 E2 E3 E4. exists p. rewrite E1, E2, E3, E4. auto. }
    assert (Hcr : forall st0, images st0 = images st ->
              current_image_index st0 = current_image_index st ->
              tex_width st0 = tex_width st -> tex_height st0 = tex_height st ->
              exists p, nth_error (images (calculate_ratio screen st0))
                          (current_image_index (calculate_ratio screen st0)) = Some p /\
                        decode w p = Some (tex_width (calculate_ratio screen st0),
                                           tex_height (calculate_ratio screen st0))).
    { intros st0 E1 E2 E3 E4.
      destruct (calculate_ratio_fields screen st0) as (F1 & F2 & _).
      destruct (calculate_ratio_tex screen st0) as (T1 & T2).
      apply Hkeep; congruence. }
    assert (Hnav : forall r, (next_image w screen st = Ok st' \/ prev_image w screen st = Ok st' \/
                   random_image w screen r st = Ok st') ->
              exists p, nth_error (images st') (current_image_index st') = Some p /\
                        decode w p = Some (tex_width st', tex_height st')).
    { intros r Hr'. destruct (navigation_load w screen st st' r Hr') as [x Hx].
      exact (load_tex _ _ _ _ Hx). }
    destruct ev as [c| | |r| | | |]; simpl in Hs.
    + destruct (Ascii.eqb c "u"%char);
        [apply with_no_draw_ok in Hs; destruct Hs as [Hs _]; apply (Hnav 0); auto|].
      destruct (Ascii.eqb c "o"%char);
        [apply with_no_draw_ok in Hs; destruct Hs as [Hs _]; apply (Hnav 0); auto|].
      destruct (Ascii.eqb c "m"%char);
        [injection Hs as <- _; apply Hcr; reflexivity|].
      destruct (Ascii.eqb c "f"%char); [injection Hs as <- _; apply Hkeep; reflexivity|].
      destruct (Ascii.eqb c "q"%char); [discriminate|].
      injection Hs as <- _. eauto.
    + apply with_no_draw_ok in Hs. destruct Hs as [Hs _]. apply (Hnav 0). auto.
    + apply with_no_draw_ok in Hs. destruct Hs as [Hs _]. apply (Hnav 0). auto.
    + apply with_no_draw_ok in Hs. destruct Hs as [Hs _]. apply (Hnav r). auto.
    + discriminate.
    + injection Hs as <- _. eauto.
    + injection Hs as <- _. apply Hcr; reflexivity.
    + unfold draw in Hs. destruct (0 <? render st)%Z; injection Hs as <- _;
        [apply Hkeep; reflexivity | eauto].
Qed.

Lemma reachable_texture_witness :
  let w := world [program; ["/"; "pics"; "b.jpg"]%string] in
  let st := match new w (of_u32 1000, of_u32 800) with
            | Ok s => s
            | _ => mkStage 0 false false (zero, zero) 0 0 [] 0
            end in
  reachable w st /\
  exists p, nth_error (images st) (current_image_index st) = Some p /\
            decode w p = Some (tex_width st, tex_height st).
Proof.
  intros w st.
  assert (H : reachable w st).
  { apply (reach_new w (of_u32 1000, of_u32 800)). vm_compute. reflexivity. }
  split; [exact H | exact (reachable_texture w st H)].
Defined.

Lemma F32_mul_minus_one_witness :
  valid (of_u32 640) = true /\ mul (of_u32 640) minus_one = opp (of_u32 640).
Proof.
  assert (H : valid (of_u32 640) = true) by (vm_compute; reflexivity).
  split; [exact H | exact (FloatProofs.F32_mul_minus_one (of_u32 640) H)].
Defined.

End Extras.
